(** * 1BRC aggregation engine: a shallow embedding of [1brc.go] and [boxer.go]

    The development follows the two Go programs of the repository:
    - [1brc.go]: the chunked, concurrent command-line aggregator
      ([parseTemp], [processChunk], the partitioner and the merge loop of
      [main]);
    - [boxer.go]: the line-by-line GUI variant ([parseTemp],
      [calculateStats]).

    Go's [float64] is the kernel's binary64 [float], each operation rounded
    on its own; [int64] is [Z] with the wrap-around written out ([wrap64]);
    byte slices are [list byte]; Go maps are [gmap string _].  A run-time
    panic is an explicit [Panic] outcome.  The opened file is a value with
    its read offset, passed from one use of the handle to the next; the
    goroutines of [main] are run one after the other, in chunk order. *)

From Stdlib Require Import ZArith List Lia Bool.
From Stdlib Require Import Strings.Byte Strings.String.
From Stdlib Require Import Floats.
From Stdlib Require Import Permutation.
From stdpp Require Import gmap strings list fin_maps pretty.

Local Open Scope Z_scope.

(* A decimal literal denotes the nearest binary64 number, as in Go. *)
Set Warnings "-inexact-float".

(** ** Outcomes: a Go call returns or panics

    [OutOfFuel] belongs to the model only: a loop whose number of iterations
    is not structurally bounded is run with a step budget, and [OutOfFuel]
    says that the budget was too small, nothing about the program. *)

Inductive panic : Type :=
| IndexOutOfRange          (* buf[i] with i outside [0, len) *)
| SliceBoundsOutOfRange    (* buf[lo:hi] with lo > hi or hi > cap *)
| MakeSliceLenOutOfRange.  (* make([]byte, n) with n < 0 *)

Inductive outcome (A : Type) : Type :=
| Returned (a : A)
| Panic (p : panic)
| OutOfFuel.
Arguments Returned {A} a.
Arguments Panic {A} p.
Arguments OutOfFuel {A}.

#[global] Instance outcome_ret : MRet outcome := @Returned.
#[global] Instance outcome_bind : MBind outcome := fun A B k o =>
  match o with
  | Returned a => k a
  | Panic p => Panic p
  | OutOfFuel => OutOfFuel
  end.
#[global] Instance outcome_fmap : FMap outcome := fun A B f o =>
  match o with
  | Returned a => Returned (f a)
  | Panic p => Panic p
  | OutOfFuel => OutOfFuel
  end.

(** ** Bytes *)

Definition NL : byte := x0a.        (* '\n' *)
Definition CR : byte := x0d.        (* '\r' *)
Definition SEMI : byte := x3b.      (* ';' *)
Definition MINUS : byte := x2d.     (* '-' *)
Definition DOT : byte := x2e.       (* '.' *)
Definition ZERO : byte := x30.      (* '0' *)

#[global] Instance byte_eq_dec : EqDecision byte := Byte.byte_eq_dec.

Definition bytes (s : string) : list byte := list_byte_of_string s.

(** [line s] is the text [s] followed by a line terminator. *)
Definition line (s : string) : list byte := bytes s ++ [NL].

(** ** Machine integers and floats *)

(** Arithmetic on [int64] wraps around silently in Go: the result is taken
    modulo 2^64 into the range from -2^63 to 2^63 - 1. *)
Definition wrap64 (z : Z) : Z := (z + 2 ^ 63) mod 2 ^ 64 - 2 ^ 63.

(** The conversion [float64(n)] of an integer, rounded to nearest even. *)
Definition float64 (z : Z) : float :=
  SF2Prim (binary_normalize prec emax z 0 false).

(** [c - '0'] on [byte] operands is computed modulo 256. *)
Definition digit (c : byte) : Z :=
  (Z.of_N (Byte.to_N c) - Z.of_N (Byte.to_N ZERO)) mod 256.

(** ** Aggregates

    [Result] in [1brc.go]; [boxer.go] uses an anonymous struct with the same
    four fields. *)

Module Result.
Record t : Type := mk { min : float; max : float; sum : float; count : Z }.
End Result.

Abbreviation table := (gmap string Result.t).

(** The aggregate of a key seen for the first time
    ([&Result{min: temp, max: temp, sum: temp, count: 1}]). *)
Definition first (temp : float) : Result.t := Result.mk temp temp temp 1.

(** The update of an existing aggregate by one more observation. *)
Definition update (result : Result.t) (temp : float) : Result.t :=
  Result.mk
    (if (temp <? Result.min result)%float then temp else Result.min result)
    (if (Result.max result <? temp)%float then temp else Result.max result)
    (Result.sum result + temp)%float
    (wrap64 (Result.count result + 1)).

(** The per-line fold shared by both programs
    ([if result, exists := results[stationName]; exists { ... } else { ... }]). *)
Definition observe (results : table) (stationName : string) (temp : float)
  : table :=
  match results !! stationName with
  | Some result => <[stationName := update result temp]> results
  | None => <[stationName := first temp]> results
  end.

(** [Station], the report row built from a finished aggregate. *)
Record Station : Type :=
  { Name : string; Min : float; Max : float; Mean : float }.

Definition station (name : string) (result : Result.t) : Station :=
  {| Name := name;
     Min := Result.min result;
     Max := Result.max result;
     Mean := (Result.sum result / float64 (Result.count result))%float |}.

(** [fmt.Printf("%.1f", x)]: the exact value of [x] rounded to one decimal
    place, ties to even.  [tenths m e] is [m * 2^e * 10] so rounded. *)
Definition tenths (m : positive) (e : Z) : Z :=
  if 0 <=? e then 10 * Z.pos m * 2 ^ e
  else
    let d := 2 ^ (- e) in
    let q := (10 * Z.pos m) / d in
    let r := (10 * Z.pos m) mod d in
    if 2 * r <? d then q
    else if d <? 2 * r then q + 1
    else if Z.even q then q else q + 1.

Definition formatTenths (x : float) : string :=
  match Prim2SF x with
  | S754_nan => "NaN"
  | S754_infinity s => if s then "-Inf" else "+Inf"
  | S754_zero s => (if s then "-" else "") +:+ "0.0"
  | S754_finite s m e =>
      let n := tenths m e in
      (if s then "-" else "") +:+ pretty (Z.to_N (n / 10)) +:+ "."
        +:+ pretty (Z.to_N (n mod 10))
  end.

(** ** Files

    An open [*os.File]: its bytes, the offset shared by every user of the
    handle, and whether the device fails reads. *)

Record File : Type :=
  mkFile { content : list byte; position : Z; failing : bool }.

(** [file.Seek(offset, 0)]; a negative offset is rejected and the position
    kept.  The error is dropped by the caller. *)
Definition Seek (f : File) (offset : Z) : File :=
  if offset <? 0 then f
  else mkFile (content f) offset (failing f).

(** [io.ReadFull(file, buf)] with [len(buf) = n]: [Some] bytes when [buf] was
    filled, [None] for an error (EOF, unexpected EOF, device error). *)
Definition ReadFull (f : File) (n : nat) : File * option (list byte) :=
  match n with
  | O => (f, Some [])
  | S _ =>
      if failing f then (f, None)
      else
        let avail := drop (Z.to_nat (position f)) (content f) in
        if (n <=? length avail)%nat
        then (mkFile (content f) (position f + Z.of_nat n) (failing f),
              Some (take n avail))
        else (mkFile (content f) (position f + Z.of_nat (length avail))
                (failing f),
              None)
  end.

(** [buf[lo:hi]] on a slice whose capacity equals its length. *)
Definition slice (buf : list byte) (lo hi : nat) : outcome (list byte) :=
  if ((lo <=? hi) && (hi <=? length buf))%nat
  then Returned (take (hi - lo) (drop lo buf))
  else Panic SliceBoundsOutOfRange.

(** ** [1brc.go] *)

Module Chunk.
Record t : Type := mk { offset : Z; size : Z }.
End Chunk.

Module Brc.

(** *** [parseTemp] *)

(** The body of [for _, c := range s]; the loop state is
    [(val, decimal, decimalPos)]. *)
Definition parseStep (st : float * bool * float) (c : byte)
  : float * bool * float :=
  let '(val, decimal, decimalPos) := st in
  if Byte.eqb c DOT then (val, true, decimalPos)
  else if decimal
       then ((val + float64 (digit c) / 10.0)%float, decimal,
             (decimalPos * 10)%float)
       else ((val * 10 + float64 (digit c))%float, decimal, decimalPos).

Definition parseTemp (s : list byte) : outcome float :=
  match s with
  | [] => Panic IndexOutOfRange                       (* s[0] *)
  | c :: s' =>
      let '(neg, s) := if Byte.eqb c MINUS then (true, s') else (false, s) in
      let '(val, _, _) := fold_left parseStep s (0.0%float, false, 1.0%float) in
      Returned (if neg then (- val)%float else val)
  end.

(** *** [processChunk] *)

(** [for start < len(buf) && buf[start] != '\n' { start++ }], with [rest]
    standing for [buf[start:]]. *)
Fixpoint skipToNewline (rest : list byte) (start : nat) : nat :=
  match rest with
  | [] => start
  | c :: rest' => if Byte.eqb c NL then start else skipToNewline rest' (S start)
  end.

(** [for end > 0 && buf[end-1] != '\n' { end-- }]. *)
Fixpoint trimToNewline (buf : list byte) (end_ : nat) : nat :=
  match end_ with
  | O => O
  | S e => if Byte.eqb (nth e buf x00) NL then end_ else trimToNewline buf e
  end.

(** [for buf[semicolon] != ';' { semicolon++ }], with [rest] standing for
    [buf[pos:]]: the station name [buf[pos:semicolon]] and what follows the
    separator, [buf[semicolon+1:]].  The loop has no end check. *)
Fixpoint findSemicolon (rest : list byte) : outcome (list byte * list byte) :=
  match rest with
  | [] => Panic IndexOutOfRange
  | c :: rest' =>
      if Byte.eqb c SEMI then Returned ([], rest')
      else '(name, after) ← findSemicolon rest'; Returned (c :: name, after)
  end.

(** [for tempEnd < len(buf) && buf[tempEnd] != '\n' { tempEnd++ }], with
    [rest] standing for [buf[tempStart:]]: the token [buf[tempStart:tempEnd]]
    and [buf[tempEnd:]]. *)
Fixpoint findNewline (rest : list byte) : list byte * list byte :=
  match rest with
  | [] => ([], [])
  | c :: rest' =>
      if Byte.eqb c NL then ([], rest)
      else let '(tok, after) := findNewline rest' in (c :: tok, after)
  end.

(** [for pos < len(buf) { ... pos = tempEnd + 1 }], with [rest] standing for
    [buf[pos:]]. *)
Fixpoint scanLines (fuel : nat) (rest : list byte) (results : table)
  : outcome table :=
  match rest with
  | [] => Returned results
  | _ :: _ =>
      match fuel with
      | O => OutOfFuel
      | S fuel' =>
          '(name, afterSemi) ← findSemicolon rest;
          let stationName := string_of_list_byte name in
          let '(tok, afterTok) := findNewline afterSemi in
          temp ← parseTemp tok;
          scanLines fuel' (drop 1 afterTok) (observe results stationName temp)
      end
  end.

(** Everything after the read: boundary snapping, re-slicing, scanning. *)
Definition scanBuffer (offset : Z) (buf : list byte) : outcome table :=
  let start :=
    if offset =? 0 then O else S (skipToNewline buf O) in
  let end_ := trimToNewline buf (length buf) in
  buf ← slice buf start end_;
  scanLines (length buf) buf ∅.

Definition processChunk (file : File) (chunk : Chunk.t)
  : File * outcome table :=
  if Chunk.size chunk <? 0 then (file, Panic MakeSliceLenOutOfRange)
  else
    let file := Seek file (Chunk.offset chunk) in
    let '(file, rd) := ReadFull file (Z.to_nat (Chunk.size chunk)) in
    (file,
     match rd with
     | None => Returned ∅                 (* if err != nil { return results } *)
     | Some buf => scanBuffer (Chunk.offset chunk) buf
     end).

(** *** [main]: the partitioner *)

Definition chunkSize (fileSize numCPUs : Z) : Z :=
  let chunkSize := Z.quot fileSize numCPUs in
  if chunkSize <? 1024 * 1024 then 1024 * 1024 else chunkSize.

(** [for offset := int64(0); offset < fileSize; offset += chunkSize { ... }] *)
Fixpoint layout (fuel : nat) (fileSize chunkSize offset : Z)
  : outcome (list Chunk.t) :=
  if offset <? fileSize then
    match fuel with
    | O => OutOfFuel
    | S fuel' =>
        let size :=
          if wrap64 (offset + chunkSize) >? fileSize
          then wrap64 (fileSize - offset) else chunkSize in
        chunks ← layout fuel' fileSize chunkSize (wrap64 (offset + chunkSize));
        Returned (Chunk.mk offset size :: chunks)
    end
  else Returned [].

Definition partition (fuel : nat) (fileSize numCPUs : Z)
  : outcome (list Chunk.t) :=
  layout fuel fileSize (chunkSize fileSize numCPUs) 0.

(** *** [main]: scanning and merging *)

(** The goroutines, run one after the other in chunk order. *)
Fixpoint scanChunks (file : File) (chunks : list Chunk.t)
  : File * outcome (list table) :=
  match chunks with
  | [] => (file, Returned [])
  | c :: chunks' =>
      let '(file, r) := processChunk file c in
      match r with
      | Returned results =>
          let '(file, rs) := scanChunks file chunks' in
          (file, tables ← rs; Returned (results :: tables))
      | Panic p => (file, Panic p)
      | OutOfFuel => (file, OutOfFuel)
      end
  end.

(** The update of [final] by the aggregate [result] of another table. *)
Definition combine (final result : Result.t) : Result.t :=
  Result.mk
    (if (Result.min result <? Result.min final)%float
     then Result.min result else Result.min final)
    (if (Result.max final <? Result.max result)%float
     then Result.max result else Result.max final)
    (Result.sum final + Result.sum result)%float
    (wrap64 (Result.count final + Result.count result)).

(** The body of [for station, result := range results]. *)
Definition mergeEntry (station : string) (result : Result.t)
  (finalResults : table) : table :=
  match finalResults !! station with
  | Some final => <[station := combine final result]> finalResults
  | None => <[station := result]> finalResults
  end.

Definition mergeResults (finalResults results : table) : table :=
  map_fold mergeEntry finalResults results.

(** [for results := range resultsChan], for tables arriving in the order
    [tables]. *)
Definition mergeAll (tables : list table) : table :=
  foldl mergeResults ∅ tables.

(** The engine of [main] on an opened file: partition, scan, merge. *)
Definition run (fuel : nat) (file : File) (numCPUs : Z) : outcome table :=
  chunks ← partition fuel (Z.of_nat (length (content file))) numCPUs;
  tables ← snd (scanChunks file chunks);
  Returned (mergeAll tables).

End Brc.

(** ** [boxer.go] *)

Module Boxer.

Definition parseStep (st : float * bool) (c : byte) : float * bool :=
  let '(val, decimal) := st in
  if Byte.eqb c DOT then (val, true)
  else if decimal
       then ((val + float64 (digit c) / 10.0)%float, decimal)
       else ((val * 10 + float64 (digit c))%float, decimal).

Definition parseTemp (s : list byte) : outcome float :=
  match s with
  | [] => Panic IndexOutOfRange
  | c :: s' =>
      let '(neg, s) := if Byte.eqb c MINUS then (true, s') else (false, s) in
      let '(val, _) := fold_left parseStep s (0.0%float, false) in
      Returned (if neg then (- val)%float else val)
  end.

(** *** [bufio.Scanner] with the default line splitter *)

Definition MaxScanTokenSize : nat := 64 * 1024.

Definition dropCR (data : list byte) : list byte :=
  match reverse data with
  | c :: r => if Byte.eqb c CR then reverse r else data
  | [] => data
  end.

(** The lines [scanner.Scan] yields and whether scanning stopped on
    [ErrTooLong]; [cur] is the line read so far. *)
Fixpoint scanTokens (cur rest : list byte) : list (list byte) * bool :=
  if (MaxScanTokenSize <=? length cur)%nat then ([], true)
  else
    match rest with
    | [] => (match cur with [] => [] | _ :: _ => [dropCR cur] end, false)
    | c :: rest' =>
        if Byte.eqb c NL
        then let '(ls, err) := scanTokens [] rest' in (dropCR cur :: ls, err)
        else scanTokens (cur ++ [c]) rest'
    end.

(** [bytes.IndexByte(line, ';')]: [None] stands for [-1]; otherwise
    [line[:sepIndex]] and [line[sepIndex+1:]]. *)
Fixpoint indexSemicolon (line : list byte) : option (list byte * list byte) :=
  match line with
  | [] => None
  | c :: line' =>
      if Byte.eqb c SEMI then Some ([], line')
      else match indexSemicolon line' with
           | Some (name, after) => Some (c :: name, after)
           | None => None
           end
  end.

(** The body of [for scanner.Scan()]. *)
Definition processLine (stations : table) (line : list byte) : outcome table :=
  match indexSemicolon line with
  | None => Returned stations                                   (* continue *)
  | Some (name, token) =>
      temp ← parseTemp token;
      Returned (observe stations (string_of_list_byte name) temp)
  end.

Fixpoint processLines (stations : table) (lines : list (list byte))
  : outcome table :=
  match lines with
  | [] => Returned stations
  | l :: lines' =>
      stations ← processLine stations l; processLines stations lines'
  end.

Inductive error : Type := FailedToOpenFile | ErrorReadingFile.

(** [calculateStats]; [None] is a file that cannot be opened.  The aggregates
    are returned in place of the [state.stations] they are converted to. *)
Definition calculateStats (file : option (list byte))
  : outcome (error + table) :=
  match file with
  | None => Returned (inl FailedToOpenFile)
  | Some content =>
      let '(lines, tooLong) := scanTokens [] content in
      stations ← processLines ∅ lines;
      Returned (if tooLong : bool then inl ErrorReadingFile else inr stations)
  end.

End Boxer.



(** * Specification vocabulary *)

(** ** Binary64 numbers

    Go's [<] on [float64] is [PrimFloat.ltb]; its specification
    [SFcompare] orders everything but NaN. *)

Module F64.

Definition number (x : float) : Prop := is_nan x = false.
Definition le (x y : float) : Prop := (x <=? y)%float = true.
Definition lt (x y : float) : Prop := (x <? y)%float = true.
Definition eq (x y : float) : Prop := (x =? y)%float = true.

(** Numbers that are not negative: [+0], the positive finite numbers and
    [+Inf]. *)
Definition SFnonneg (x : spec_float) : Prop :=
  match x with
  | S754_zero false | S754_infinity false | S754_finite false _ _ => True
  | _ => False
  end.

Definition nonneg (x : float) : Prop := SFnonneg (Prim2SF x).

End F64.

(** ** Aggregates, tables and layouts *)

(** [fsum_of obs s]: [s] is a binary64 sum of the observations [obs], taken
    in their order with some bracketing. *)
Inductive fsum_of : list float -> float -> Prop :=
| fsum_one v : fsum_of [v] v
| fsum_app l1 l2 s1 s2 :
    fsum_of l1 s1 -> fsum_of l2 s2 -> fsum_of (l1 ++ l2) (s1 + s2)%float.

(** What an aggregate records about the observations folded into it. *)
Record summarises (r : Result.t) (obs : list float) : Prop :=
  { sum_numbers : Forall F64.number obs;
    sum_count : Result.count r = wrap64 (Z.of_nat (length obs));
    sum_min_below : Forall (F64.le (Result.min r)) obs;
    sum_min_attained : Exists (F64.eq (Result.min r)) obs;
    sum_max_above : Forall (fun v => F64.le v (Result.max r)) obs;
    sum_max_attained : Exists (F64.eq (Result.max r)) obs;
    sum_sum : fsum_of obs (Result.sum r) }.

(** The aggregates the programs can hold: made from a first observation,
    updated by one more, or merged from two. *)
Inductive folded : Result.t -> list float -> Prop :=
| folded_first v : F64.number v -> folded (first v) [v]
| folded_update r obs v :
    folded r obs -> F64.number v -> folded (update r v) (obs ++ [v])
| folded_merge a b oa ob :
    folded a oa -> folded b ob -> folded (Brc.combine a b) (oa ++ ob).

(** The values observed for key [k], in order. *)
Definition vals (k : string) (obs : list (string * float)) : list float :=
  (filter (fun p => p.1 = k) obs).*2.

(** A table tracks a list of observations when it holds, for each key seen,
    an aggregate folded from the values of that key, and nothing else. *)
Definition tracks (t : table) (obs : list (string * float)) : Prop :=
  forall k,
    match t !! k with
    | Some r => folded r (vals k obs)
    | None => vals k obs = []
    end.

(** Folding a list of observations into a table, as the scan loops do. *)
Definition foldObservations (t : table) (obs : list (string * float)) : table :=
  foldl (fun t p => observe t p.1 p.2) t obs.

(** The observations the loop folds, one per iteration. *)
Fixpoint scannedRecords (fuel : nat) (rest : list byte)
  : outcome (list (string * float)) :=
  match rest with
  | [] => Returned []
  | _ :: _ =>
      match fuel with
      | O => OutOfFuel
      | S fuel' =>
          '(name, afterSemi) ← Brc.findSemicolon rest;
          let '(tok, afterTok) := Brc.findNewline afterSemi in
          temp ← Brc.parseTemp tok;
          recs ← scannedRecords fuel' (drop 1 afterTok);
          Returned ((string_of_list_byte name, temp) :: recs)
      end
  end.

(** The layout claimed for the partitioner: from [offset] on, each chunk
    starts where the previous one ended and has the nominal size, cut down to
    what is left of the file, until the file is covered. *)
Fixpoint laidOut (fileSize chunkSize offset : Z) (chunks : list Chunk.t)
  : Prop :=
  match chunks with
  | [] => fileSize <= offset
  | c :: chunks' =>
      offset < fileSize /\
      Chunk.offset c = offset /\
      Chunk.size c = Z.min chunkSize (fileSize - offset) /\
      laidOut fileSize chunkSize (offset + Chunk.size c) chunks'
  end.

Definition totalSize (chunks : list Chunk.t) : Z :=
  foldr (fun c n => Chunk.size c + n) 0 chunks.

(** What chunking and merge order preserve of the aggregate of a key whose
    values are [ws]: the count, the minimum and maximum as numbers, and that
    the sum is a binary64 sum of those values, taken in some order. *)
Definition agree (ws : list float) (g s : option Result.t) : Prop :=
  match g, s with
  | Some g, Some s =>
      Result.count g = Result.count s /\
      F64.eq (Result.min g) (Result.min s) /\
      F64.eq (Result.max g) (Result.max s) /\
      fsum_of ws (Result.sum s) /\
      exists vs, Permutation vs ws /\ fsum_of vs (Result.sum g)
  | None, None => True
  | _, _ => False
  end.

(** One mebibyte of input: 2^16 lines of 16 bytes. *)
Definition mebibyte : list byte :=
  concat (repeat (line "Reykjavik;-12.5") (2 ^ 16)).

(** A file of one mebibyte of lines followed by one more line, and the same
    file with the terminator of its last line missing. *)
Definition seamFile : File := mkFile (mebibyte ++ line "Oslo;2.5") 0 false.
Definition unterminatedFile : File :=
  mkFile (mebibyte ++ bytes "Oslo;2.5") 0 false.

(** * Properties *)

(** ** The order of binary64 numbers *)

Module F64Facts.
Import F64.

Lemma SFcompare_refl x : x <> S754_nan -> SFcompare x x = Some Eq.
Proof.
  destruct x as [[]|[]| |[] m e]; simpl; try congruence; intros _;
    rewrite Z.compare_refl, Pos.compare_cont_refl; reflexivity.
Qed.

Lemma SFcompare_antisym x y :
  SFcompare y x = option_map CompOpp (SFcompare x y).
Proof.
  destruct x as [[]|[]| |[] m1 e1], y as [[]|[]| |[] m2 e2]; simpl;
    try reflexivity;
    change (Pos.compare_cont Eq) with Pos.compare;
    rewrite (Z.compare_antisym e1 e2), (Pos.compare_antisym m1 m2);
    destruct (e1 ?= e2); simpl; try reflexivity;
    destruct (m1 ?= m2)%positive; reflexivity.
Qed.

Lemma SFcompare_None x y :
  SFcompare x y = None <-> x = S754_nan \/ y = S754_nan.
Proof.
  destruct x as [[]|[]| |[] m1 e1], y as [[]|[]| |[] m2 e2]; simpl;
    intuition congruence.
Qed.

Lemma SFleb_trans x y z :
  SFleb x y = true -> SFleb y z = true -> SFleb x z = true.
Proof.
  unfold SFleb.
  destruct x as [[]|[]| |[] m1 e1], y as [[]|[]| |[] m2 e2],
    z as [[]|[]| |[] m3 e3]; simpl; try congruence;
    change (Pos.compare_cont Eq) with Pos.compare;
    destruct (Z.compare_spec e1 e2), (Z.compare_spec e2 e3),
      (Z.compare_spec e1 e3); try congruence; try lia;
    destruct (Pos.compare_spec m1 m2), (Pos.compare_spec m2 m3),
      (Pos.compare_spec m1 m3); simpl; try congruence; try lia.
Qed.

Lemma number_spec x : number x <-> Prim2SF x <> S754_nan.
Proof.
  unfold number, is_nan. rewrite FloatAxioms.eqb_spec. unfold SFeqb. split.
  - intros H E. rewrite E in H. discriminate.
  - intros H. rewrite SFcompare_refl by assumption. reflexivity.
Qed.

Lemma le_number x y : le x y -> number x /\ number y.
Proof.
  unfold le. rewrite FloatAxioms.leb_spec, !number_spec. unfold SFleb.
  destruct (SFcompare (Prim2SF x) (Prim2SF y)) eqn:E; [|discriminate].
  intros _. split; intros N; rewrite N in E; simpl in E;
    [|destruct (Prim2SF x)]; discriminate.
Qed.

Lemma le_refl x : number x -> le x x.
Proof.
  rewrite number_spec. unfold le. rewrite FloatAxioms.leb_spec. unfold SFleb.
  intros H. rewrite SFcompare_refl by assumption. reflexivity.
Qed.

Lemma le_trans x y z : le x y -> le y z -> le x z.
Proof. unfold le. rewrite !FloatAxioms.leb_spec. apply SFleb_trans. Qed.

Lemma lt_le x y : lt x y -> le x y.
Proof.
  unfold lt, le. rewrite FloatAxioms.ltb_spec, FloatAxioms.leb_spec. unfold SFltb, SFleb.
  destruct (SFcompare _ _) as [[]|]; congruence.
Qed.

Lemma lt_not_le x y : lt x y -> le y x -> False.
Proof.
  unfold lt, le. rewrite FloatAxioms.ltb_spec, FloatAxioms.leb_spec. unfold SFltb, SFleb.
  rewrite (SFcompare_antisym (Prim2SF x) (Prim2SF y)).
  destruct (SFcompare _ _) as [[]|]; simpl; congruence.
Qed.

Lemma not_lt_le x y : number x -> number y -> (x <? y)%float = false -> le y x.
Proof.
  rewrite !number_spec. unfold le. rewrite FloatAxioms.ltb_spec, FloatAxioms.leb_spec.
  unfold SFltb, SFleb. intros Hx Hy.
  rewrite (SFcompare_antisym (Prim2SF x) (Prim2SF y)).
  destruct (SFcompare _ _) as [[]|] eqn:E; simpl; try congruence.
  apply SFcompare_None in E. tauto.
Qed.

Lemma eq_le x y : eq x y <-> le x y /\ le y x.
Proof.
  unfold eq, le. rewrite FloatAxioms.eqb_spec, !FloatAxioms.leb_spec. unfold SFeqb, SFleb.
  rewrite (SFcompare_antisym (Prim2SF x) (Prim2SF y)).
  destruct (SFcompare _ _) as [[]|]; simpl; intuition congruence.
Qed.

Lemma eq_refl x : number x -> eq x x.
Proof. intros H. apply eq_le. split; apply le_refl, H. Qed.

Lemma eq_sym x y : eq x y -> eq y x.
Proof. rewrite !eq_le. tauto. Qed.

Lemma eq_trans x y z : eq x y -> eq y z -> eq x z.
Proof. rewrite !eq_le. intros [] []. split; eapply le_trans; eassumption. Qed.

(** *** Sums and products of non-negative numbers are never NaN *)

Section Rounding.
Variables prec emax : Z.

Lemma shr_1_nonneg mrs : 0 <= shr_m mrs -> 0 <= shr_m (shr_1 mrs).
Proof. destruct mrs as [[|[p|p|]|[p|p|]] r t]; simpl; lia. Qed.

Lemma iter_shr_1_nonneg p : forall mrs,
  0 <= shr_m mrs -> 0 <= shr_m (SpecFloat.iter_pos shr_1 p mrs).
Proof.
  induction p as [p IH|p IH|]; simpl; intros mrs H.
  - apply IH, IH, shr_1_nonneg, H.
  - apply IH, IH, H.
  - apply shr_1_nonneg, H.
Qed.

Lemma shr_fexp_nonneg m e l :
  0 <= m -> 0 <= shr_m (fst (shr_fexp prec emax m e l)).
Proof.
  intros H. unfold shr_fexp, shr.
  assert (0 <= shr_m (shr_record_of_loc m l)) as H'
    by (destruct l as [|[]]; exact H).
  destruct (fexp prec emax (Zdigits2 m + e) - e); simpl; try exact H'.
  apply iter_shr_1_nonneg, H'.
Qed.

Lemma round_nearest_even_nonneg m l :
  0 <= m -> 0 <= round_nearest_even m l.
Proof.
  intros H. destruct l as [|[]]; simpl; try lia.
  destruct (Z.even m); lia.
Qed.

Lemma binary_round_aux_nonneg m e l :
  0 <= m -> SFnonneg (binary_round_aux prec emax false m e l).
Proof.
  intros H. unfold binary_round_aux.
  pose proof (shr_fexp_nonneg m e l H) as H1.
  destruct (shr_fexp prec emax m e l) as [mrs' e']. simpl in H1.
  pose proof (shr_fexp_nonneg _ e' loc_Exact
    (round_nearest_even_nonneg _ (loc_of_shr_record mrs') H1)) as H2.
  destruct (shr_fexp prec emax _ e' loc_Exact) as [mrs'' e'']. simpl in H2.
  destruct (shr_m mrs''); [exact I| |lia].
  destruct (e'' <=? emax - prec); exact I.
Qed.

Lemma binary_round_nonneg m e : SFnonneg (binary_round prec emax false m e).
Proof.
  unfold binary_round. destruct (shl_align _ _ _) as [mz ez].
  apply binary_round_aux_nonneg. lia.
Qed.

Lemma SFadd_nonneg x y :
  SFnonneg x -> SFnonneg y -> SFnonneg (SFadd prec emax x y).
Proof.
  destruct x as [[]|[]| |[] mx ex], y as [[]|[]| |[] my ey]; simpl;
    try tauto.
  intros _ _. apply binary_round_nonneg.
Qed.

Lemma SFmul_finite_nonneg x my ey :
  SFnonneg x -> SFnonneg (SFmul prec emax x (S754_finite false my ey)).
Proof.
  destruct x as [[]|[]| |[] mx ex]; simpl; try tauto.
  intros _. apply binary_round_aux_nonneg. lia.
Qed.
End Rounding.

Lemma nonneg_number x : nonneg x -> number x.
Proof.
  unfold nonneg. rewrite number_spec.
  destruct (Prim2SF x) as [[]|[]| |[] m e]; simpl; congruence || tauto.
Qed.

Lemma add_nonneg x y : nonneg x -> nonneg y -> nonneg (x + y).
Proof. unfold nonneg. rewrite add_spec. apply SFadd_nonneg. Qed.

Lemma mul10_nonneg x : nonneg x -> nonneg (x * 10).
Proof.
  unfold nonneg. rewrite mul_spec.
  change (Prim2SF 10) with (S754_finite false 5629499534213120 (-49)).
  apply SFmul_finite_nonneg.
Qed.

Lemma opp_number x : number x -> number (- x).
Proof.
  rewrite !number_spec, opp_spec. destruct (Prim2SF x); simpl; congruence.
Qed.

Lemma digit_nonneg c : nonneg (float64 (digit c)).
Proof. destruct c; vm_compute; exact I. Qed.

Lemma tenth_nonneg c : nonneg (float64 (digit c) / 10).
Proof. destruct c; vm_compute; exact I. Qed.

End F64Facts.

(** ** [parseTemp] *)

(** The two programs parse alike: [decimalPos] of [1brc.go] is never read. *)
Lemma parseStep_agree st c :
  fst (Brc.parseStep st c) = Boxer.parseStep (fst st) c.
Proof.
  destruct st as [[val decimal] decimalPos]. unfold Brc.parseStep, Boxer.parseStep.
  simpl. destruct (Byte.eqb c DOT), decimal; reflexivity.
Qed.

Lemma parseLoop_agree s : forall st,
  fst (fold_left Brc.parseStep s st) = fold_left Boxer.parseStep s (fst st).
Proof.
  induction s as [|c s IH]; intros st; simpl; [reflexivity|].
  rewrite IH, parseStep_agree. reflexivity.
Qed.

Lemma parseTemp_agree s : Brc.parseTemp s = Boxer.parseTemp s.
Proof.
  destruct s as [|c s]; [reflexivity|]. unfold Brc.parseTemp, Boxer.parseTemp.
  destruct (Byte.eqb c MINUS).
  - pose proof (parseLoop_agree s (0%float, false, 1%float)) as H.
    destruct (fold_left Brc.parseStep s _) as [[v d] dp].
    simpl in H. rewrite <- H. reflexivity.
  - pose proof (parseLoop_agree (c :: s) (0%float, false, 1%float)) as H.
    destruct (fold_left Brc.parseStep (c :: s) _) as [[v d] dp].
    simpl in H. simpl. rewrite <- H. reflexivity.
Qed.

(** The accumulator only ever grows from [+0] by sums and products of
    non-negative numbers, so the parser never yields a NaN. *)
Lemma parseStep_nonneg st c :
  F64.nonneg (fst st) -> F64.nonneg (fst (Boxer.parseStep st c)).
Proof.
  destruct st as [val decimal]. unfold Boxer.parseStep. simpl. intros H.
  destruct (Byte.eqb c DOT); [exact H|]. destruct decimal; simpl.
  - apply F64Facts.add_nonneg; [exact H|apply F64Facts.tenth_nonneg].
  - apply F64Facts.add_nonneg; [apply F64Facts.mul10_nonneg, H|apply F64Facts.digit_nonneg].
Qed.

Lemma parseLoop_nonneg s : forall st,
  F64.nonneg (fst st) -> F64.nonneg (fst (fold_left Boxer.parseStep s st)).
Proof.
  induction s as [|c s IH]; intros st H; simpl; [exact H|].
  apply IH, parseStep_nonneg, H.
Qed.

Lemma Boxer_parseTemp_number s v :
  Boxer.parseTemp s = Returned v -> F64.number v.
Proof.
  destruct s as [|c s]; [discriminate|]. unfold Boxer.parseTemp.
  assert (F64.nonneg (fst (0%float, false))) as H0 by (vm_compute; exact I).
  destruct (Byte.eqb c MINUS).
  - pose proof (parseLoop_nonneg s _ H0) as H.
    destruct (fold_left Boxer.parseStep s _) as [val d]. intros [= <-].
    apply F64Facts.opp_number, F64Facts.nonneg_number, H.
  - pose proof (parseLoop_nonneg (c :: s) _ H0) as H.
    destruct (fold_left Boxer.parseStep (c :: s) _) as [val d]. intros [= <-].
    apply F64Facts.nonneg_number, H.
Qed.

Lemma parseTemp_number s v : Brc.parseTemp s = Returned v -> F64.number v.
Proof. rewrite parseTemp_agree. apply Boxer_parseTemp_number. Qed.

(** ** Aggregates *)

Lemma wrap64_small z : - 2 ^ 63 <= z < 2 ^ 63 -> wrap64 z = z.
Proof. intros H. unfold wrap64. rewrite Z.mod_small; lia. Qed.

Lemma wrap64_add_l a b : wrap64 (wrap64 a + b) = wrap64 (a + b).
Proof.
  unfold wrap64. f_equal.
  replace ((a + 2 ^ 63) mod 2 ^ 64 - 2 ^ 63 + b + 2 ^ 63)
    with ((a + 2 ^ 63) mod 2 ^ 64 + b) by lia.
  rewrite Zplus_mod_idemp_l. f_equal. lia.
Qed.

Lemma wrap64_add_r a b : wrap64 (a + wrap64 b) = wrap64 (a + b).
Proof. rewrite (Z.add_comm a), wrap64_add_l. f_equal. lia. Qed.

Lemma summarises_first v : F64.number v -> summarises (first v) [v].
Proof.
  intros H. pose proof (F64Facts.le_refl v H). pose proof (F64Facts.eq_refl v H).
  split; simpl; auto using fsum_one.
Qed.

Lemma min_step_le (m v x : float) :
  F64.number m -> F64.number v ->
  F64.le m x -> F64.le (if (v <? m)%float then v else m) x.
Proof.
  intros Hm Hv H. destruct (v <? m)%float eqn:E; [|exact H].
  eapply F64Facts.le_trans; [apply F64Facts.lt_le, E|exact H].
Qed.

Lemma min_step_le_new (m v : float) :
  F64.number m -> F64.number v -> F64.le (if (v <? m)%float then v else m) v.
Proof.
  intros Hm Hv. destruct (v <? m)%float eqn:E; [apply F64Facts.le_refl, Hv|].
  apply F64Facts.not_lt_le; assumption.
Qed.

Lemma max_step_le (m v x : float) :
  F64.number m -> F64.number v ->
  F64.le x m -> F64.le x (if (m <? v)%float then v else m).
Proof.
  intros Hm Hv H. destruct (m <? v)%float eqn:E; [|exact H].
  eapply F64Facts.le_trans; [exact H|apply F64Facts.lt_le, E].
Qed.

Lemma max_step_le_new (m v : float) :
  F64.number m -> F64.number v -> F64.le v (if (m <? v)%float then v else m).
Proof.
  intros Hm Hv. destruct (m <? v)%float eqn:E; [apply F64Facts.le_refl, Hv|].
  apply F64Facts.not_lt_le; assumption.
Qed.

Lemma summarises_nonempty r obs : summarises r obs -> obs <> [].
Proof. intros [_ _ _ H _ _ _] ->. inversion H. Qed.

Lemma summarises_min_number r obs : summarises r obs -> F64.number (Result.min r).
Proof.
  intros [_ _ _ H _ _ _]. apply Exists_exists in H as (v & _ & H).
  apply F64Facts.eq_le in H as [H _]. apply F64Facts.le_number in H. tauto.
Qed.

Lemma summarises_max_number r obs : summarises r obs -> F64.number (Result.max r).
Proof.
  intros [_ _ _ _ _ H _]. apply Exists_exists in H as (v & _ & H).
  apply F64Facts.eq_le in H as [H _]. apply F64Facts.le_number in H. tauto.
Qed.

Lemma summarises_update r obs v :
  summarises r obs -> F64.number v -> summarises (update r v) (obs ++ [v]).
Proof.
  intros S Hv.
  pose proof (summarises_min_number _ _ S) as Hmin.
  pose proof (summarises_max_number _ _ S) as Hmax.
  destruct S as [Hn Hc Hlo Hlo' Hhi Hhi' Hs].
  split; unfold update; simpl.
  - apply Forall_app; auto.
  - rewrite Hc, wrap64_add_l, length_app. simpl. f_equal. lia.
  - apply Forall_app. split.
    + eapply Forall_impl; [exact Hlo|]. intros x. apply min_step_le; assumption.
    + constructor; [|constructor]. apply min_step_le_new; assumption.
  - apply Exists_app. destruct (v <? Result.min r)%float.
    + right. constructor. apply F64Facts.eq_refl, Hv.
    + left. exact Hlo'.
  - apply Forall_app. split.
    + eapply Forall_impl; [exact Hhi|]. intros x. apply max_step_le; assumption.
    + constructor; [|constructor]. apply max_step_le_new; assumption.
  - apply Exists_app. destruct (Result.max r <? v)%float.
    + right. constructor. apply F64Facts.eq_refl, Hv.
    + left. exact Hhi'.
  - apply fsum_app; [exact Hs|apply fsum_one].
Qed.

Lemma summarises_combine a b oa ob :
  summarises a oa -> summarises b ob ->
  summarises (Brc.combine a b) (oa ++ ob).
Proof.
  intros Sa Sb.
  pose proof (summarises_min_number _ _ Sa) as Hmina.
  pose proof (summarises_max_number _ _ Sa) as Hmaxa.
  pose proof (summarises_min_number _ _ Sb) as Hminb.
  pose proof (summarises_max_number _ _ Sb) as Hmaxb.
  destruct Sa as [Hna Hca Hloa Hloa' Hhia Hhia' Hsa].
  destruct Sb as [Hnb Hcb Hlob Hlob' Hhib Hhib' Hsb].
  split; unfold Brc.combine; simpl.
  - apply Forall_app; auto.
  - rewrite Hca, Hcb, wrap64_add_l, wrap64_add_r, length_app. f_equal. lia.
  - apply Forall_app. split.
    + eapply Forall_impl; [exact Hloa|]. intros x. apply min_step_le; assumption.
    + eapply Forall_impl; [exact Hlob|]. intros x Hx.
      eapply F64Facts.le_trans; [apply min_step_le_new; assumption|exact Hx].
  - apply Exists_app. destruct (Result.min b <? Result.min a)%float; auto.
  - apply Forall_app. split.
    + eapply Forall_impl; [exact Hhia|]. intros x. apply max_step_le; assumption.
    + eapply Forall_impl; [exact Hhib|]. intros x Hx.
      eapply F64Facts.le_trans; [exact Hx|apply max_step_le_new; assumption].
  - apply Exists_app. destruct (Result.max a <? Result.max b)%float; auto.
  - apply fsum_app; assumption.
Qed.

Lemma summarises_min_max r obs :
  summarises r obs -> F64.le (Result.min r) (Result.max r).
Proof.
  intros S. pose proof (summarises_nonempty _ _ S) as Hne.
  destruct S as [_ _ Hlo _ Hhi _ _]. destruct obs as [|v obs]; [congruence|].
  inversion Hlo; inversion Hhi; subst. eapply F64Facts.le_trans; eassumption.
Qed.

(** Aggregates of the same observations, in whatever order and grouping, have
    the same count and, as numbers, the same minimum and maximum. *)
Lemma summarises_perm r1 r2 obs1 obs2 :
  summarises r1 obs1 -> summarises r2 obs2 -> Permutation obs1 obs2 ->
  Result.count r1 = Result.count r2 /\
  F64.eq (Result.min r1) (Result.min r2) /\
  F64.eq (Result.max r1) (Result.max r2).
Proof.
  intros [_ Hc1 Hlo1 Hlo1' Hhi1 Hhi1' _] [_ Hc2 Hlo2 Hlo2' Hhi2 Hhi2' _] HP.
  split; [|split].
  - rewrite Hc1, Hc2, (Permutation_length HP). reflexivity.
  - apply F64Facts.eq_le.
    apply Exists_exists in Hlo1' as (v1 & Hin1 & He1).
    apply Exists_exists in Hlo2' as (v2 & Hin2 & He2).
    rewrite Forall_forall in Hlo1, Hlo2.
    apply F64Facts.eq_le in He1 as [_ He1], He2 as [_ He2]. split.
    + eapply F64Facts.le_trans; [|exact He2]. apply Hlo1.
      apply list_elem_of_In. rewrite HP. apply list_elem_of_In, Hin2.
    + eapply F64Facts.le_trans; [|exact He1]. apply Hlo2.
      apply list_elem_of_In. rewrite <- HP. apply list_elem_of_In, Hin1.
  - apply F64Facts.eq_le.
    apply Exists_exists in Hhi1' as (v1 & Hin1 & He1).
    apply Exists_exists in Hhi2' as (v2 & Hin2 & He2).
    rewrite Forall_forall in Hhi1, Hhi2.
    apply F64Facts.eq_le in He1 as [He1 _], He2 as [He2 _]. split.
    + eapply F64Facts.le_trans; [exact He1|]. apply Hhi2.
      apply list_elem_of_In. rewrite <- HP. apply list_elem_of_In, Hin1.
    + eapply F64Facts.le_trans; [exact He2|]. apply Hhi1.
      apply list_elem_of_In. rewrite HP. apply list_elem_of_In, Hin2.
Qed.

Lemma folded_summarises r obs : folded r obs -> summarises r obs.
Proof.
  induction 1;
    auto using summarises_first, summarises_update, summarises_combine.
Qed.

(** ** Tables *)

Lemma vals_app k o1 o2 : vals k (o1 ++ o2) = vals k o1 ++ vals k o2.
Proof. unfold vals. rewrite filter_app, fmap_app. reflexivity. Qed.

Lemma vals_single_eq k v : vals k [(k, v)] = [v].
Proof. unfold vals. rewrite filter_cons_True by reflexivity. reflexivity. Qed.

Lemma vals_single_ne k k' v : k' <> k -> vals k [(k', v)] = [].
Proof. intros H. unfold vals. rewrite filter_cons_False by exact H. reflexivity. Qed.

Lemma vals_perm k o1 o2 : Permutation o1 o2 -> Permutation (vals k o1) (vals k o2).
Proof. intros H. unfold vals. rewrite H. reflexivity. Qed.

Lemma tracks_empty : tracks ∅ [].
Proof. intros k. rewrite lookup_empty. reflexivity. Qed.

Lemma tracks_observe t obs k v :
  tracks t obs -> F64.number v -> tracks (observe t k v) (obs ++ [(k, v)]).
Proof.
  intros T Hv k'. unfold observe. rewrite vals_app.
  pose proof (T k) as Tk. pose proof (T k') as Tk'.
  destruct (decide (k = k')) as [<-|Hne].
  - rewrite vals_single_eq. destruct (t !! k) as [r|].
    + rewrite lookup_insert_eq. apply folded_update; assumption.
    + rewrite lookup_insert_eq, Tk. apply folded_first, Hv.
  - rewrite vals_single_ne, app_nil_r by exact Hne.
    destruct (t !! k); rewrite lookup_insert_ne by exact Hne; exact Tk'.
Qed.

Lemma tracks_foldObservations obs : forall t obs0,
  tracks t obs0 -> Forall (fun p => F64.number p.2) obs ->
  tracks (foldObservations t obs) (obs0 ++ obs).
Proof.
  induction obs as [|[k v] obs IH]; intros t obs0 T H; simpl.
  - rewrite app_nil_r. exact T.
  - inversion H; subst.
    replace (obs0 ++ (k, v) :: obs) with ((obs0 ++ [(k, v)]) ++ obs)
      by (rewrite <- app_assoc; reflexivity).
    apply IH; [|assumption]. apply tracks_observe; assumption.
Qed.

(** The merge of one table into another, key by key. *)
Lemma mergeResults_lookup final results k :
  Brc.mergeResults final results !! k =
  match final !! k, results !! k with
  | Some a, Some b => Some (Brc.combine a b)
  | Some a, None => Some a
  | None, o => o
  end.
Proof.
  unfold Brc.mergeResults.
  apply (map_fold_weak_ind
    (fun (acc : table) (m : table) =>
       acc !! k = match final !! k, m !! k with
                  | Some a, Some b => Some (Brc.combine a b)
                  | Some a, None => Some a
                  | None, o => o
                  end)).
  - rewrite lookup_empty. destruct (final !! k); reflexivity.
  - intros i x m acc Hi IH. unfold Brc.mergeEntry.
    destruct (decide (i = k)) as [->|Hne].
    + rewrite Hi in IH. rewrite lookup_insert_eq.
      destruct (final !! k) as [a|] eqn:Ef.
      * rewrite IH, lookup_insert_eq. reflexivity.
      * rewrite IH, lookup_insert_eq. reflexivity.
    + rewrite (lookup_insert_ne m) by exact Hne.
      destruct (acc !! i); rewrite lookup_insert_ne by exact Hne; exact IH.
Qed.

Lemma tracks_mergeResults final results obsf obsr :
  tracks final obsf -> tracks results obsr ->
  tracks (Brc.mergeResults final results) (obsf ++ obsr).
Proof.
  intros Tf Tr k. rewrite mergeResults_lookup, vals_app.
  pose proof (Tf k) as Hf. pose proof (Tr k) as Hr.
  destruct (final !! k) as [a|], (results !! k) as [b|].
  - apply folded_merge; assumption.
  - rewrite Hr, app_nil_r. exact Hf.
  - rewrite Hf. exact Hr.
  - rewrite Hf, Hr. reflexivity.
Qed.

Lemma tracks_foldl_mergeResults tables : forall chunks final obs0,
  tracks final obs0 -> Forall2 tracks tables chunks ->
  tracks (foldl Brc.mergeResults final tables) (obs0 ++ concat chunks).
Proof.
  induction tables as [|t tables IH]; intros chunks final obs0 T H;
    inversion H; subst; simpl.
  - rewrite app_nil_r. exact T.
  - rewrite app_assoc. apply IH; [|assumption].
    apply tracks_mergeResults; assumption.
Qed.

Lemma tracks_mergeAll tables chunks :
  Forall2 tracks tables chunks -> tracks (Brc.mergeAll tables) (concat chunks).
Proof. apply (tracks_foldl_mergeResults tables chunks ∅ []), tracks_empty. Qed.

(** ** The scan loop of [processChunk] *)

Lemma scanLines_records fuel : forall rest t,
  Brc.scanLines fuel rest t = foldObservations t <$> scannedRecords fuel rest.
Proof.
  induction fuel as [|fuel IH]; intros [|c rest] t; try reflexivity.
  cbn [Brc.scanLines scannedRecords].
  destruct (Brc.findSemicolon (c :: rest)) as [[name afterSemi]| |];
    try reflexivity.
  cbn. destruct (Brc.findNewline afterSemi) as [tok afterTok].
  destruct (Brc.parseTemp tok) as [temp| |]; try reflexivity.
  cbn. rewrite IH.
  destruct (scannedRecords fuel (drop 1 afterTok)); reflexivity.
Qed.

Lemma scannedRecords_number fuel : forall rest recs,
  scannedRecords fuel rest = Returned recs ->
  Forall (fun p => F64.number p.2) recs.
Proof.
  induction fuel as [|fuel IH]; intros [|c rest] recs; cbn [scannedRecords];
    try discriminate; try (intros [= <-]; constructor).
  destruct (Brc.findSemicolon (c :: rest)) as [[name afterSemi]| |];
    try discriminate.
  cbn. destruct (Brc.findNewline afterSemi) as [tok afterTok].
  destruct (Brc.parseTemp tok) as [temp| |] eqn:Et; try discriminate.
  cbn. destruct (scannedRecords fuel (drop 1 afterTok)) as [recs'| |] eqn:Er;
    try discriminate.
  cbn. intros [= <-]. constructor.
  - simpl. eapply parseTemp_number, Et.
  - eapply IH, Er.
Qed.

(** A table scanned from the empty table tracks the records scanned. *)
Lemma scanLines_tracks fuel rest t :
  Brc.scanLines fuel rest ∅ = Returned t ->
  exists recs, scannedRecords fuel rest = Returned recs /\ tracks t recs.
Proof.
  rewrite scanLines_records.
  destruct (scannedRecords fuel rest) as [recs| |] eqn:E; try discriminate.
  intros [= <-]. exists recs. split; [reflexivity|].
  apply (tracks_foldObservations recs ∅ []); [apply tracks_empty|].
  eapply scannedRecords_number, E.
Qed.

(** The budget [len(buf)] given by [scanBuffer] is never exhausted. *)
Lemma findSemicolon_shorter rest : forall name after,
  Brc.findSemicolon rest = Returned (name, after) ->
  (length after < length rest)%nat.
Proof.
  induction rest as [|c rest IH]; intros name after; simpl; [discriminate|].
  destruct (Byte.eqb c SEMI).
  - intros [= <- <-]. lia.
  - destruct (Brc.findSemicolon rest) as [[n a]| |]; try discriminate.
    cbn. intros [= <- <-]. specialize (IH _ _ eq_refl). lia.
Qed.

Lemma findSemicolon_fuel rest : Brc.findSemicolon rest <> OutOfFuel.
Proof.
  induction rest as [|c rest IH]; simpl; [discriminate|].
  destruct (Byte.eqb c SEMI); [discriminate|].
  destruct (Brc.findSemicolon rest) as [[n a]| |]; cbn; congruence.
Qed.

Lemma findNewline_shorter rest :
  (length (Brc.findNewline rest).2 <= length rest)%nat.
Proof.
  induction rest as [|c rest IH]; simpl; [lia|].
  destruct (Byte.eqb c NL); simpl; [lia|].
  destruct (Brc.findNewline rest); simpl in *. lia.
Qed.

Lemma parseTemp_fuel s : Brc.parseTemp s <> OutOfFuel.
Proof.
  destruct s as [|c s]; simpl; [discriminate|].
  destruct (Byte.eqb c MINUS);
    destruct (fold_left _ _ _) as [[v d] dp]; discriminate.
Qed.

Lemma scanLines_fuel fuel : forall rest t,
  (length rest <= fuel)%nat -> Brc.scanLines fuel rest t <> OutOfFuel.
Proof.
  induction fuel as [|fuel IH]; intros [|c rest] t Hlen;
    cbn [Brc.scanLines]; try discriminate; [simpl in Hlen; lia|].
  pose proof (findSemicolon_shorter (c :: rest)) as Hs.
  pose proof (findSemicolon_fuel (c :: rest)) as Hf.
  destruct (Brc.findSemicolon (c :: rest)) as [[name afterSemi]| |];
    try congruence; try discriminate.
  cbn. specialize (Hs _ _ eq_refl).
  pose proof (findNewline_shorter afterSemi) as Hn.
  destruct (Brc.findNewline afterSemi) as [tok afterTok]. simpl in Hn.
  pose proof (parseTemp_fuel tok) as Hp.
  destruct (Brc.parseTemp tok) as [temp| |]; try congruence; try discriminate.
  cbn. apply IH. rewrite length_drop. simpl in Hlen, Hs. lia.
Qed.

Lemma scanBuffer_fuel offset buf : Brc.scanBuffer offset buf <> OutOfFuel.
Proof.
  unfold Brc.scanBuffer. destruct (slice buf _ _) as [b| |] eqn:E; cbn.
  - apply scanLines_fuel. lia.
  - discriminate.
  - unfold slice in E. destruct (_ && _); discriminate.
Qed.

Lemma processChunk_fuel file chunk : (Brc.processChunk file chunk).2 <> OutOfFuel.
Proof.
  unfold Brc.processChunk. destruct (Chunk.size chunk <? 0); [discriminate|].
  destruct (ReadFull _ _) as [f [buf|]]; simpl; [|discriminate].
  apply scanBuffer_fuel.
Qed.

(** * The claims *)

(** ** The numeric parser *)

(** C4, at the token 1.25: every fractional digit is divided by ten,
    whatever its position, so both programs return 1 + 0.2 + 0.5 = 1.7
    where the token denotes 1.25. *)
Theorem parseTemp_second_fractional_digit :
  Brc.parseTemp (bytes "1.25") = Returned 1.7%float /\
  Boxer.parseTemp (bytes "1.25") = Returned 1.7%float /\
  (1.7 =? 1.25)%float = false.
Proof. repeat apply conj; vm_compute; reflexivity. Qed.

(** C5: on the tokens -3.2, 0.0 and 100 the parser returns exactly the
    binary64 numbers -3.2, 0.0 and 100.0, and printing them back with one
    decimal gives -3.2, 0.0 and 100.0. *)
Theorem parseTemp_round_trip :
  Brc.parseTemp (bytes "-3.2") = Returned (-3.2)%float /\
  Brc.parseTemp (bytes "0.0") = Returned 0.0%float /\
  Brc.parseTemp (bytes "100") = Returned 100.0%float /\
  formatTenths <$> Brc.parseTemp (bytes "-3.2") = Returned "-3.2" /\
  formatTenths <$> Brc.parseTemp (bytes "0.0") = Returned "0.0" /\
  formatTenths <$> Brc.parseTemp (bytes "100") = Returned "100.0".
Proof. repeat apply conj; vm_compute; reflexivity. Qed.

(** ** Malformed and boundary inputs *)

Lemma run_empty_file fuel numCPUs failing :
  Brc.run fuel (mkFile [] 0 failing) numCPUs = Returned ∅.
Proof. destruct fuel; reflexivity. Qed.

Example run_single_line :
  Brc.run 1 (mkFile (line "Hamburg;12.0") 0 false) 4
  = Returned {[ "Hamburg" := Result.mk 12 12 12 1 ]} /\
  station "Hamburg" (Result.mk 12 12 12 1) = Build_Station "Hamburg" 12 12 12.
Proof. repeat apply conj; vm_compute; reflexivity. Qed.

(** C7, at the file made of one newline byte: [1brc.go] enters the scan loop
    on the one-byte buffer, finds no separator and indexes past its end, so
    the run panics; [boxer.go] skips the empty line and returns no entry. *)
Theorem newline_only_file_panics :
  Brc.run 1 (mkFile [NL] 0 false) 1 = Panic IndexOutOfRange /\
  Brc.run 1 (mkFile [NL] 0 false) 8 = Panic IndexOutOfRange /\
  Boxer.calculateStats (Some [NL]) = Returned (inr ∅).
Proof. repeat apply conj; vm_compute; reflexivity. Qed.

(** C8, at a file whose line lacks the separator: [1brc.go] searches for the
    separator without an end check and panics on the index past the buffer,
    or, when a later line has one, takes the text up to it, line terminator
    included, for the station name; [boxer.go] skips the line. *)
Theorem missing_separator_policies_differ :
  Brc.run 1 (mkFile (line "abc") 0 false) 1 = Panic IndexOutOfRange /\
  Boxer.calculateStats (Some (line "abc")) = Returned (inr ∅) /\
  Brc.run 1 (mkFile (line "abc" ++ line "k;1") 0 false) 1
  = Returned {[ string_of_list_byte (line "abc" ++ bytes "k")
                := Result.mk 1 1 1 1 ]} /\
  Boxer.calculateStats (Some (line "abc" ++ line "k;1"))
  = Returned (inr {[ "k" := Result.mk 1 1 1 1 ]}).
Proof. repeat apply conj; vm_compute; reflexivity. Qed.

(** ** Read failures *)

(** C3 as stated fails: a short read and a failing device both make
    [processChunk] return the empty table, and the run ends normally with
    the chunk's lines missing. *)
Lemma read_failure_returns_empty_table :
  (ReadFull (Seek (mkFile (line "a;1") 0 false) 0) 8).2 = None /\
  (Brc.processChunk (mkFile (line "a;1") 0 false) (Chunk.mk 0 8)).2
  = Returned ∅ /\
  Brc.run 1 (mkFile (line "a;1") 0 true) 1 = Returned ∅.
Proof. repeat apply conj; vm_compute; reflexivity. Qed.

Lemma mergeResults_empty final : Brc.mergeResults final ∅ = final.
Proof. apply map_fold_empty. Qed.

(** C3, amended: when reading the chunk's byte range fails, [processChunk]
    returns the empty table and no error, and merging that table leaves the
    global table as it was. *)
Theorem read_failure_is_empty_table file chunk :
  0 <= Chunk.size chunk ->
  (ReadFull (Seek file (Chunk.offset chunk)) (Z.to_nat (Chunk.size chunk))).2
  = None ->
  (Brc.processChunk file chunk).2 = Returned ∅ /\
  forall final, Brc.mergeResults final ∅ = final.
Proof.
  intros Hsize Hread. split; [|apply mergeResults_empty].
  unfold Brc.processChunk.
  destruct (Z.ltb_spec (Chunk.size chunk) 0) as [|_]; [lia|].
  destruct (ReadFull _ _) as [f rd]. simpl in Hread. subst rd. reflexivity.
Qed.

Lemma read_failure_is_empty_table_witness :
  (Brc.processChunk (mkFile (line "a;1") 0 false) (Chunk.mk 0 8)).2
  = Returned ∅ /\
  forall final, Brc.mergeResults final ∅ = final.
Proof.
  apply (read_failure_is_empty_table (mkFile (line "a;1") 0 false)
           (Chunk.mk 0 8)).
  - simpl. lia.
  - reflexivity.
Defined.

(** ** Boundary snapping *)

Lemma byte_eqb_spec (a b : byte) : reflect (a = b) (Byte.eqb a b).
Proof.
  destruct (Byte.eqb a b) eqn:E; constructor.
  - apply Byte.byte_dec_bl, E.
  - apply Byte.eqb_false, E.
Qed.

Lemma skipToNewline_none rest : forall start,
  NL ∉ rest -> Brc.skipToNewline rest start = (start + length rest)%nat.
Proof.
  induction rest as [|c rest IH]; intros start H; simpl; [lia|].
  apply not_elem_of_cons in H as [Hc Hrest].
  destruct (byte_eqb_spec c NL) as [->|_]; [congruence|].
  rewrite IH by exact Hrest. lia.
Qed.

Lemma trimToNewline_none buf : forall end_,
  (end_ <= length buf)%nat -> NL ∉ buf -> Brc.trimToNewline buf end_ = O.
Proof.
  induction end_ as [|e IH]; intros Hlen H; simpl; [reflexivity|].
  destruct (byte_eqb_spec (nth e buf x00) NL) as [E|_].
  - exfalso. apply H. rewrite <- E. apply list_elem_of_In, nth_In. lia.
  - apply IH; [lia|exact H].
Qed.

(** C10: a chunk that does not start the file and whose bytes hold no
    newline makes [processChunk] panic: the start index passes the end of the
    buffer by one, the end index falls back to zero, and re-slicing
    [buf[start:end]] is out of bounds. *)
Theorem chunk_without_newline_panics file chunk file' buf :
  0 < Chunk.offset chunk -> 0 <= Chunk.size chunk ->
  ReadFull (Seek file (Chunk.offset chunk)) (Z.to_nat (Chunk.size chunk))
  = (file', Some buf) ->
  NL ∉ buf ->
  S (Brc.skipToNewline buf O) = S (length buf) /\
  Brc.trimToNewline buf (length buf) = O /\
  Brc.processChunk file chunk = (file', Panic SliceBoundsOutOfRange).
Proof.
  intros Hoff Hsize Hread Hnl.
  rewrite (skipToNewline_none buf O Hnl).
  rewrite (trimToNewline_none buf (length buf) (Nat.le_refl _) Hnl).
  split; [reflexivity|]. split; [reflexivity|].
  unfold Brc.processChunk.
  destruct (Z.ltb_spec (Chunk.size chunk) 0) as [|_]; [lia|].
  rewrite Hread. f_equal. unfold Brc.scanBuffer.
  destruct (Z.eqb_spec (Chunk.offset chunk) 0) as [|_]; [lia|].
  rewrite (skipToNewline_none buf O Hnl).
  rewrite (trimToNewline_none buf (length buf) (Nat.le_refl _) Hnl).
  reflexivity.
Qed.

Lemma chunk_without_newline_panics_witness :
  Brc.processChunk (mkFile (line "k;1" ++ line "longname;2") 0 false)
    (Chunk.mk 4 5)
  = (mkFile (line "k;1" ++ line "longname;2") 9 false,
     Panic SliceBoundsOutOfRange).
Proof.
  apply (chunk_without_newline_panics
           (mkFile (line "k;1" ++ line "longname;2") 0 false)
           (Chunk.mk 4 5) _ (bytes "longn")).
  - simpl. lia.
  - simpl. lia.
  - reflexivity.
  - vm_compute. intros H. repeat (apply elem_of_cons in H as [H|H]; [discriminate|]).
    inversion H.
Defined.

(** ** The range partitioner *)

Lemma layout_unfold fuel fileSize chunkSize offset :
  Brc.layout fuel fileSize chunkSize offset =
  if offset <? fileSize then
    match fuel with
    | O => OutOfFuel
    | S fuel' =>
        chunks ← Brc.layout fuel' fileSize chunkSize (wrap64 (offset + chunkSize));
        Returned
          (Chunk.mk offset
             (if wrap64 (offset + chunkSize) >? fileSize
              then wrap64 (fileSize - offset) else chunkSize) :: chunks)
    end
  else Returned [].
Proof. destruct fuel; reflexivity. Qed.

Lemma laidOut_totalSize fileSize chunkSize chunks : forall offset,
  0 < chunkSize -> offset <= fileSize ->
  laidOut fileSize chunkSize offset chunks ->
  totalSize chunks = fileSize - offset.
Proof.
  induction chunks as [|c chunks IH]; intros offset Hcs Hle; simpl.
  - lia.
  - intros (Hlt & Ho & Hs & Hrest).
    rewrite (IH (offset + Chunk.size c) Hcs); [lia|lia|exact Hrest].
Qed.

Lemma layout_laidOut fileSize chunkSize fuel : forall offset,
  0 < chunkSize -> fileSize + chunkSize < 2 ^ 63 -> 0 <= offset ->
  fileSize - offset <= Z.of_nat fuel * chunkSize ->
  exists chunks,
    Brc.layout fuel fileSize chunkSize offset = Returned chunks /\
    laidOut fileSize chunkSize offset chunks.
Proof.
  induction fuel as [|fuel IH]; intros offset Hcs Hbound Hoff Hfuel;
    rewrite layout_unfold;
    destruct (Z.ltb_spec offset fileSize) as [Hlt|Hge];
    try (exists []; split; [reflexivity|exact Hge]).
  - lia.
  - rewrite (wrap64_small (offset + chunkSize)) by lia.
    destruct (IH (offset + chunkSize)) as (chunks & -> & HL); try lia.
    eexists. split; [reflexivity|]. simpl.
    split; [exact Hlt|]. split; [reflexivity|].
    destruct (Z.gtb_spec (offset + chunkSize) fileSize) as [Hcut|Hfit].
    + rewrite wrap64_small by lia. split; [lia|].
      destruct chunks as [|c chunks]; simpl in *; lia.
    + split; [lia|exact HL].
Qed.

(** C6 as stated fails at the top of the [int64] range: for a file of
    2^63 - 1 bytes and two workers, [offset + chunkSize] wraps around at the
    third chunk, which therefore keeps the nominal size and reaches past the
    end of the file, whatever the number of iterations run. *)
Lemma partition_wraps_around :
  ~ exists fuel chunks,
      Brc.partition fuel (2 ^ 63 - 1) 2 = Returned chunks /\
      laidOut (2 ^ 63 - 1) (Brc.chunkSize (2 ^ 63 - 1) 2) 0 chunks.
Proof.
  intros (fuel & chunks & H & L). unfold Brc.partition in H.
  change (Brc.chunkSize (2 ^ 63 - 1) 2) with 4611686018427387903 in *.
  change (2 ^ 63 - 1) with 9223372036854775807 in *.
  rewrite layout_unfold in H. change (0 <? 9223372036854775807) with true in H.
  destruct fuel as [|fuel]; [discriminate|]. cbv iota beta in H.
  change (wrap64 (0 + 4611686018427387903)) with 4611686018427387903 in H.
  rewrite layout_unfold in H.
  change (4611686018427387903 <? 9223372036854775807) with true in H.
  destruct fuel as [|fuel]; [discriminate|]. cbv iota beta in H.
  change (wrap64 (4611686018427387903 + 4611686018427387903))
    with 9223372036854775806 in H.
  rewrite layout_unfold in H.
  change (9223372036854775806 <? 9223372036854775807) with true in H.
  destruct fuel as [|fuel]; [discriminate|]. cbv iota beta in H.
  change (wrap64 (9223372036854775806 + 4611686018427387903))
    with (-4611686018427387907) in H.
  change (-4611686018427387907 >? 9223372036854775807) with false in H.
  destruct (Brc.layout fuel _ _ _) as [rest| |]; try discriminate.
  cbn in H. injection H as <-. cbn [laidOut Chunk.offset Chunk.size] in L.
  destruct L as (_ & _ & _ & _ & _ & _ & _ & _ & Hsize & _).
  vm_compute in Hsize. discriminate.
Qed.

(** C6, amended: for every file size F >= 0 and worker count C >= 1 with
    F + max(F / C, 1 MiB) inside the [int64] range, the partitioner, given
    at least F / chunkSize + 1 iterations, returns chunks of nominal size
    max(F / C, 1 MiB) laid out consecutively from offset 0 until the file is
    covered, the last one cut down to the remaining bytes, so that the sizes
    sum to F; F = 0 gives no chunk. *)
Theorem partition_layout fileSize numCPUs fuel :
  0 <= fileSize -> 1 <= numCPUs ->
  fileSize + Z.max (fileSize / numCPUs) (1024 * 1024) < 2 ^ 63 ->
  fileSize / Brc.chunkSize fileSize numCPUs < Z.of_nat fuel ->
  Brc.chunkSize fileSize numCPUs = Z.max (fileSize / numCPUs) (1024 * 1024) /\
  exists chunks,
    Brc.partition fuel fileSize numCPUs = Returned chunks /\
    laidOut fileSize (Brc.chunkSize fileSize numCPUs) 0 chunks /\
    totalSize chunks = fileSize /\
    (fileSize = 0 -> chunks = []).
Proof.
  intros HF HC Hbound Hfuel.
  assert (Brc.chunkSize fileSize numCPUs
          = Z.max (fileSize / numCPUs) (1024 * 1024)) as Hcs.
  { unfold Brc.chunkSize. rewrite Z.quot_div_nonneg by lia.
    destruct (Z.ltb_spec (fileSize / numCPUs) (1024 * 1024)); lia. }
  split; [exact Hcs|].
  assert (0 < Brc.chunkSize fileSize numCPUs) as Hpos by lia.
  destruct (layout_laidOut fileSize (Brc.chunkSize fileSize numCPUs) fuel 0)
    as (chunks & Hrun & HL); try lia.
  { pose proof (Z.mul_succ_div_gt fileSize (Brc.chunkSize fileSize numCPUs) Hpos).
    nia. }
  exists chunks. split; [exact Hrun|]. split; [exact HL|]. split.
  - rewrite (laidOut_totalSize _ _ _ 0 Hpos HF HL). lia.
  - intros ->. destruct chunks as [|c chunks]; [reflexivity|].
    simpl in HL. lia.
Qed.

Lemma partition_layout_witness :
  exists chunks,
    Brc.partition 3 1048580 2 = Returned chunks /\
    laidOut 1048580 (Brc.chunkSize 1048580 2) 0 chunks /\
    totalSize chunks = 1048580 /\
    (1048580 = 0 -> chunks = []).
Proof.
  apply (partition_layout 1048580 2 3); vm_compute; congruence.
Defined.

(** ** The aggregate invariant *)

(** Every aggregate of a table produced by the scan loop, and of a table
    merged from such tables, is [folded] from the observations of its key. *)
Lemma scanBuffer_tracks offset buf t :
  Brc.scanBuffer offset buf = Returned t -> exists recs, tracks t recs.
Proof.
  unfold Brc.scanBuffer. destruct (slice buf _ _) as [b| |]; try discriminate.
  cbn. intros H. apply scanLines_tracks in H as (recs & _ & H). eauto.
Qed.

Lemma mergeAll_tracks tables :
  Forall (fun t => exists recs, tracks t recs) tables ->
  exists recs, tracks (Brc.mergeAll tables) recs.
Proof.
  intros H.
  assert (exists chunks, Forall2 tracks tables chunks) as [chunks HF].
  { induction H as [|t tables [recs Ht] _ [chunks IH]].
    - exists []. constructor.
    - exists (recs :: chunks). constructor; assumption. }
  exists (concat chunks). apply tracks_mergeAll, HF.
Qed.

(** C9: an aggregate made from a first observation, updated by further
    observations and merged with other such aggregates has min <= max,
    count >= 1, count equal to the number of observations folded into it and
    sum equal to their binary64 sum, so that the reported mean is that sum
    over their number.  The observations are numbers, as the parser's results
    are, and fewer than 2^63, the range of the [int64] count. *)
Theorem aggregate_invariant r obs name :
  folded r obs -> Z.of_nat (length obs) < 2 ^ 63 ->
  F64.le (Result.min r) (Result.max r) /\
  1 <= Result.count r /\
  Result.count r = Z.of_nat (length obs) /\
  fsum_of obs (Result.sum r) /\
  Mean (station name r)
  = (Result.sum r / float64 (Z.of_nat (length obs)))%float.
Proof.
  intros HF Hlen. apply folded_summarises in HF as HS.
  pose proof (summarises_nonempty _ _ HS) as Hne.
  pose proof (summarises_min_max _ _ HS) as Hmm.
  destruct HS as [_ Hc _ _ _ _ Hs].
  rewrite wrap64_small in Hc by lia.
  assert (length obs <> O) by (destruct obs; simpl; congruence).
  split; [exact Hmm|]. split; [lia|]. split; [exact Hc|]. split; [exact Hs|].
  simpl. rewrite Hc. reflexivity.
Qed.

Lemma aggregate_invariant_witness :
  F64.le 8.5 15.2 /\
  1 <= 3 /\
  3 = Z.of_nat (length [12.0; 8.5; 15.2]%float) /\
  fsum_of [12.0; 8.5; 15.2]%float (12.0 + 8.5 + 15.2)%float /\
  Mean (station "Hamburg" (Result.mk 8.5 15.2 (12.0 + 8.5 + 15.2) 3))
  = ((12.0 + 8.5 + 15.2) / 3)%float.
Proof.
  refine (aggregate_invariant
            (Brc.combine (update (first 12.0) 8.5) (first 15.2))
            ([12.0; 8.5] ++ [15.2])%float "Hamburg" _ _).
  - apply folded_merge.
    + apply (folded_update (first 12.0) [12.0%float] 8.5%float).
      * apply folded_first. reflexivity.
      * reflexivity.
    + apply folded_first. reflexivity.
  - simpl. lia.
Defined.

(** ** Chunking and merge order *)

(** C2 as stated fails: binary64 addition is not associative, so the sum of
    0.1, 0.2 and 0.3 depends on where the chunk boundary falls; and the order
    of merging decides which of two equal zeros of opposite sign is kept. *)
Lemma chunking_changes_sum :
  Brc.scanBuffer 0 (line "a;0.1")
  = Returned {[ "a" := Result.mk 0.1 0.1 0.1 1 ]} /\
  Brc.scanBuffer 0 (line "a;0.2" ++ line "a;0.3")
  = Returned {[ "a" := Result.mk 0.2 0.3 0.5 2 ]} /\
  Brc.mergeAll [ {[ "a" := Result.mk 0.1 0.1 0.1 1 ]};
                 {[ "a" := Result.mk 0.2 0.3 0.5 2 ]} ] !! "a"
  = Some (Result.mk 0.1 0.3 0.6 3) /\
  Brc.scanBuffer 0 (line "a;0.1" ++ line "a;0.2" ++ line "a;0.3")
  = Returned {[ "a" := Result.mk 0.1 0.3 0.6000000000000001 3 ]} /\
  (0.6 =? 0.6000000000000001)%float = false /\
  Brc.mergeAll [ {[ "a" := first 0 ]}; {[ "a" := first (-0) ]} ] !! "a"
  = Some (Result.mk 0 0 0 2) /\
  Brc.mergeAll [ {[ "a" := first (-0) ]}; {[ "a" := first 0 ]} ] !! "a"
  = Some (Result.mk (-0) (-0) 0 2) /\
  PrimFloat.Leibniz.eqb 0 (-0) = false.
Proof. repeat apply conj; vm_compute; reflexivity. Qed.

Lemma tracks_agree t1 t2 obs1 obs2 k :
  tracks t1 obs1 -> tracks t2 obs2 -> Permutation obs1 obs2 ->
  agree (vals k obs2) (t1 !! k) (t2 !! k).
Proof.
  intros T1 T2 HP. specialize (T1 k). specialize (T2 k).
  apply (vals_perm k) in HP. unfold agree.
  destruct (t1 !! k) as [r1|], (t2 !! k) as [r2|].
  - apply folded_summarises in T1, T2.
    destruct (summarises_perm _ _ _ _ T1 T2 HP) as (Hc & Hmin & Hmax).
    split; [exact Hc|]. split; [exact Hmin|]. split; [exact Hmax|].
    split; [apply T2|]. exists (vals k obs1). split; [exact HP|apply T1].
  - apply folded_summarises, summarises_nonempty in T1.
    rewrite T2 in HP. apply Permutation_nil_r in HP. contradiction.
  - apply folded_summarises, summarises_nonempty in T2.
    rewrite T1 in HP. apply Permutation_nil in HP. contradiction.
  - exact I.
Qed.

Lemma foldObservations_tracks obs :
  Forall (fun p => F64.number p.2) obs -> tracks (foldObservations ∅ obs) obs.
Proof. apply (tracks_foldObservations obs ∅ []), tracks_empty. Qed.

(** C2, amended: for every list of observations whose values are numbers,
    split into chunks in any way, each chunk folded into its own table and
    the tables merged in any order, the merged table has the keys of the
    table folded from the whole list and, for each key, the same count and,
    as numbers, the same minimum and maximum; both sums are binary64 sums of
    the values of the key, taken in possibly different orders. *)
Theorem chunked_merge_agrees
  (obs : list (string * float)) (chunks : list (list (string * float)))
  (tables : list table) (k : string) :
  Forall (fun p => F64.number p.2) obs ->
  Permutation (concat chunks) obs ->
  Permutation tables (map (foldObservations ∅) chunks) ->
  agree (vals k obs) (Brc.mergeAll tables !! k) (foldObservations ∅ obs !! k).
Proof.
  intros Hnum Hobs Htab.
  apply Permutation_map_inv in Htab as (chunks' & -> & Hchunks).
  assert (Permutation (concat chunks') obs) as Hobs'.
  { rewrite <- Hobs. apply Permutation_sym in Hchunks.
    clear -Hchunks. induction Hchunks; simpl.
    - reflexivity.
    - apply Permutation_app_head, IHHchunks.
    - rewrite !app_assoc. apply Permutation_app_tail, Permutation_app_comm.
    - etransitivity; eassumption. }
  apply (tracks_agree _ _ (concat chunks') obs); [| |exact Hobs'].
  - apply tracks_mergeAll.
    assert (Forall (fun p => F64.number p.2) (concat chunks')) as Hnum'.
    { rewrite Forall_forall in *. intros p Hp. apply Hnum.
      rewrite <- Hobs'. exact Hp. }
    clear -Hnum'. induction chunks' as [|c chunks' IH]; simpl in *.
    + constructor.
    + apply Forall_app in Hnum' as [Hc Hrest]. constructor.
      * apply foldObservations_tracks, Hc.
      * apply IH, Hrest.
  - apply foldObservations_tracks, Hnum.
Qed.

Lemma chunked_merge_agrees_witness :
  agree [0.1; 0.2; 0.3]%float
    (Brc.mergeAll
       [foldObservations ∅ [("a", 0.2); ("b", 1.5); ("a", 0.3)]%float;
        foldObservations ∅ [("a", 0.1%float)]] !! "a")
    (foldObservations ∅
       [("a", 0.1); ("a", 0.2); ("b", 1.5); ("a", 0.3)]%float !! "a").
Proof.
  apply (chunked_merge_agrees
           [("a", 0.1); ("a", 0.2); ("b", 1.5); ("a", 0.3)]%float
           [[("a", 0.1%float)]; [("a", 0.2); ("b", 1.5); ("a", 0.3)]%float]).
  - repeat constructor.
  - reflexivity.
  - apply perm_swap.
Defined.

(** ** Scanning well-formed lines *)

Lemma findSemicolon_app name rest :
  SEMI ∉ name -> Brc.findSemicolon (name ++ SEMI :: rest) = Returned (name, rest).
Proof.
  induction name as [|c name IH]; intros H; simpl.
  - reflexivity.
  - apply not_elem_of_cons in H as [Hc Hname].
    destruct (byte_eqb_spec c SEMI) as [->|_]; [congruence|].
    rewrite IH by exact Hname. reflexivity.
Qed.

Lemma findNewline_app tok rest :
  NL ∉ tok -> Brc.findNewline (tok ++ NL :: rest) = (tok, NL :: rest).
Proof.
  induction tok as [|c tok IH]; intros H; simpl.
  - reflexivity.
  - apply not_elem_of_cons in H as [Hc Htok].
    destruct (byte_eqb_spec c NL) as [->|_]; [congruence|].
    rewrite IH by exact Htok. reflexivity.
Qed.

(** One iteration of the scan loop on a line [name;tok\n]. *)
Lemma scanLines_line fuel name tok v rest t :
  SEMI ∉ name -> NL ∉ tok -> Brc.parseTemp tok = Returned v ->
  Brc.scanLines (S fuel) (name ++ SEMI :: tok ++ NL :: rest) t
  = Brc.scanLines fuel rest (observe t (string_of_list_byte name) v).
Proof.
  intros Hname Htok Hv.
  assert (exists c l, name ++ SEMI :: tok ++ NL :: rest = c :: l) as (c & l & E)
    by (destruct name; simpl; eauto).
  cbn [Brc.scanLines]. rewrite E at 1. rewrite findSemicolon_app by exact Hname.
  cbn. rewrite findNewline_app by exact Htok. rewrite Hv. reflexivity.
Qed.

(** [n] iterations on [n] copies of the same line. *)
Lemma scanLines_repeat name tok v n : forall fuel rest t,
  SEMI ∉ name -> NL ∉ tok -> Brc.parseTemp tok = Returned v ->
  Brc.scanLines (n + fuel)
    (concat (repeat (name ++ SEMI :: tok ++ [NL]) n) ++ rest) t
  = Brc.scanLines fuel rest
      (Nat.iter n (fun t => observe t (string_of_list_byte name) v) t).
Proof.
  induction n as [|n IH]; intros fuel rest t Hname Htok Hv.
  - reflexivity.
  - cbn [repeat concat Nat.add].
    replace (((name ++ SEMI :: tok ++ [NL])
              ++ concat (repeat (name ++ SEMI :: tok ++ [NL]) n)) ++ rest)
      with (name ++ SEMI :: tok ++ NL ::
              (concat (repeat (name ++ SEMI :: tok ++ [NL]) n) ++ rest))
      by (rewrite <- !app_assoc; cbn [app]; rewrite <- app_assoc; reflexivity).
    rewrite (scanLines_line _ _ _ v) by assumption.
    rewrite IH by assumption. rewrite Nat.iter_succ_r. reflexivity.
Qed.

(** Observing the same number [n >= 1] times. *)
Lemma observe_repeat key v n :
  (v <? v)%float = false -> (0 < n)%nat -> Z.of_nat n < 2 ^ 63 ->
  exists s,
    Nat.iter n (fun t => observe t key v) ∅
    = {[ key := Result.mk v v s (Z.of_nat n) ]}.
Proof.
  intros Hv Hpos Hn. destruct n as [|n]; [lia|]. clear Hpos.
  induction n as [|n IH].
  - exists v. reflexivity.
  - destruct IH as [s IH]; [lia|].
    exists (s + v)%float. rewrite Nat.iter_succ, IH. unfold observe.
    rewrite lookup_singleton_eq. unfold update. cbn [Result.min Result.max Result.sum Result.count].
    rewrite Hv, insert_singleton_eq, wrap64_small by lia.
    do 3 f_equal. lia.
Qed.

(** ** Lines at chunk seams *)

Lemma trimToNewline_terminated pre :
  Brc.trimToNewline (pre ++ [NL]) (length (pre ++ [NL])) = length (pre ++ [NL]).
Proof.
  rewrite length_app, Nat.add_comm. cbn [length Nat.add Brc.trimToNewline].
  rewrite app_nth2, Nat.sub_diag by lia. reflexivity.
Qed.

Lemma concat_repeat_terminated (l : list byte) n :
  exists pre, concat (repeat (l ++ [NL]) (S n)) = pre ++ [NL].
Proof.
  cbn [repeat]. rewrite repeat_cons, concat_app. cbn [concat].
  rewrite app_nil_r, app_assoc. eauto.
Qed.

Lemma length_concat_repeat (l : list byte) n :
  length (concat (repeat l n)) = (n * length l)%nat.
Proof. induction n as [|n IH]; simpl; [reflexivity|]. rewrite length_app, IH. reflexivity. Qed.

(** A first chunk that ends in a newline is scanned whole. *)
Lemma scanBuffer_first_terminated pre :
  Brc.scanBuffer 0 (pre ++ [NL])
  = Brc.scanLines (length (pre ++ [NL])) (pre ++ [NL]) ∅.
Proof.
  unfold Brc.scanBuffer. cbn [Z.eqb]. cbv zeta.
  rewrite trimToNewline_terminated. unfold slice.
  rewrite Nat.leb_refl. cbn [Nat.leb andb drop mbind outcome_bind].
  rewrite Nat.sub_0_r, firstn_all. reflexivity.
Qed.

(** Scanning a buffer of [S n] copies of one well-formed line, read as the
    first chunk. *)
Lemma scanBuffer_repeat name tok v n :
  SEMI ∉ name -> NL ∉ tok -> Brc.parseTemp tok = Returned v -> (0 < n)%nat ->
  Brc.scanBuffer 0 (concat (repeat (name ++ SEMI :: tok ++ [NL]) n))
  = Returned (Nat.iter n (fun t => observe t (string_of_list_byte name) v) ∅).
Proof.
  intros Hname Htok Hv Hn. destruct n as [|n]; [lia|]. clear Hn.
  assert (exists pre,
            concat (repeat (name ++ SEMI :: tok ++ [NL]) (S n)) = pre ++ [NL])
    as [pre Hpre].
  { replace (name ++ SEMI :: tok ++ [NL]) with ((name ++ SEMI :: tok) ++ [NL])
      by (rewrite <- app_assoc; reflexivity).
    apply concat_repeat_terminated. }
  rewrite Hpre, scanBuffer_first_terminated, <- Hpre.
  pose proof (scanLines_repeat name tok v (S n)
                (length (concat (repeat (name ++ SEMI :: tok ++ [NL]) (S n)))
                 - S n) [] ∅ Hname Htok Hv) as H.
  rewrite app_nil_r in H.
  replace (S n + (length (concat (repeat (name ++ SEMI :: tok ++ [NL]) (S n)))
                  - S n))%nat
    with (length (concat (repeat (name ++ SEMI :: tok ++ [NL]) (S n)))) in H.
  - rewrite H. destruct (_ - _)%nat; reflexivity.
  - rewrite length_concat_repeat, length_app. simpl. nia.
Qed.

(** A read that succeeds: the bytes at the chunk's offset, and the handle
    moved past them. *)
Lemma ReadFull_ok f n buf rest :
  failing f = false ->
  drop (Z.to_nat (position f)) (content f) = buf ++ rest ->
  length buf = n ->
  ReadFull f n
  = (mkFile (content f) (position f + Z.of_nat n) false, Some buf).
Proof.
  intros Hf Hdrop Hlen. unfold ReadFull. destruct n as [|n].
  - destruct buf; [|discriminate]. destruct f as [c p fl]. simpl in *.
    subst fl. rewrite Z.add_0_r. reflexivity.
  - rewrite Hf, Hdrop. rewrite length_app.
    destruct (Nat.leb_spec (S n) (length buf + length rest)) as [_|]; [|lia].
    rewrite take_app_length' by (symmetry; exact Hlen). reflexivity.
Qed.

Lemma processChunk_ok file offset size buf rest :
  0 <= offset -> 0 <= size -> failing file = false ->
  drop (Z.to_nat offset) (content file) = buf ++ rest ->
  Z.of_nat (length buf) = size ->
  Brc.processChunk file (Chunk.mk offset size)
  = (mkFile (content file) (offset + size) false, Brc.scanBuffer offset buf).
Proof.
  intros Hoff Hsize Hf Hdrop Hlen. unfold Brc.processChunk.
  cbn [Chunk.offset Chunk.size].
  destruct (Z.ltb_spec size 0) as [|_]; [lia|].
  unfold Seek. destruct (Z.ltb_spec offset 0) as [|_]; [lia|].
  rewrite (ReadFull_ok _ (Z.to_nat size) buf rest); cbn [content position failing];
    try assumption; try lia.
  rewrite Z2Nat.id by exact Hsize. reflexivity.
Qed.

Lemma mergeAll_singleton_empty k r :
  Brc.mergeAll [ {[ k := r ]}; ∅ ] = {[ k := r ]}.
Proof.
  unfold Brc.mergeAll. cbn [foldl]. rewrite mergeResults_empty.
  unfold Brc.mergeResults. rewrite map_fold_singleton. unfold Brc.mergeEntry.
  rewrite lookup_empty, insert_empty. reflexivity.
Qed.

Lemma scanChunks_two file c0 c1 f0 t0 f1 t1 :
  Brc.processChunk file c0 = (f0, Returned t0) ->
  Brc.processChunk f0 c1 = (f1, Returned t1) ->
  Brc.scanChunks file [c0; c1] = (f1, Returned [t0; t1]).
Proof. intros H0 H1. cbn [Brc.scanChunks]. rewrite H0, H1. reflexivity. Qed.

Lemma run_steps fuel file numCPUs chunks tables file' :
  Brc.partition fuel (Z.of_nat (length (content file))) numCPUs
  = Returned chunks ->
  Brc.scanChunks file chunks = (file', Returned tables) ->
  Brc.run fuel file numCPUs = Returned (Brc.mergeAll tables).
Proof. intros HP HS. unfold Brc.run. rewrite HP. cbn. rewrite HS. reflexivity. Qed.


Lemma scanChunks_panic file c0 c1 f0 t0 f1 p :
  Brc.processChunk file c0 = (f0, Returned t0) ->
  Brc.processChunk f0 c1 = (f1, Panic p) ->
  Brc.scanChunks file [c0; c1] = (f1, Panic p).
Proof. intros H0 H1. cbn [Brc.scanChunks]. rewrite H0, H1. reflexivity. Qed.

Lemma run_panic fuel file numCPUs chunks p file' :
  Brc.partition fuel (Z.of_nat (length (content file))) numCPUs
  = Returned chunks ->
  Brc.scanChunks file chunks = (file', Panic p) ->
  Brc.run fuel file numCPUs = Panic p.
Proof. intros HP HS. unfold Brc.run. rewrite HP. cbn. rewrite HS. reflexivity. Qed.

(** A chunk that does not start the file is scanned as if the first line of
    its buffer, complete or not, were not there. *)
Lemma skipToNewline_app l rest : forall start,
  NL ∉ l -> Brc.skipToNewline (l ++ NL :: rest) start = (start + length l)%nat.
Proof.
  induction l as [|c l IH]; intros start H; simpl.
  - lia.
  - apply not_elem_of_cons in H as [Hc Hl].
    destruct (byte_eqb_spec c NL) as [->|_]; [congruence|].
    rewrite IH by exact Hl. lia.
Qed.

Lemma trimToNewline_le buf : forall end_, (Brc.trimToNewline buf end_ <= end_)%nat.
Proof.
  induction end_ as [|e IH]; simpl; [lia|].
  destruct (Byte.eqb _ _); lia.
Qed.

Lemma trimToNewline_app pre rest : forall k,
  Brc.trimToNewline (pre ++ NL :: rest) (S (length pre) + k)
  = (S (length pre) + Brc.trimToNewline rest k)%nat.
Proof.
  induction k as [|k IH].
  - rewrite Nat.add_0_r. cbn [Brc.trimToNewline].
    rewrite app_nth2, Nat.sub_diag by lia. cbn [nth].
    destruct (byte_eqb_spec NL NL) as [_|]; [lia|congruence].
  - replace (S (length pre) + S k)%nat with (S (S (length pre) + k)) by lia.
    cbn [Brc.trimToNewline]. rewrite app_nth2 by lia.
    replace (S (length pre) + k - length pre)%nat with (S k) by lia.
    cbn [nth]. destruct (Byte.eqb (nth k rest x00) NL); [lia|exact IH].
Qed.

Lemma scanBuffer_skips_first_line offset l rest :
  offset <> 0 -> NL ∉ l ->
  Brc.scanBuffer offset (l ++ NL :: rest) = Brc.scanBuffer 0 rest.
Proof.
  intros Hoff Hl. unfold Brc.scanBuffer.
  destruct (Z.eqb_spec offset 0) as [|_]; [contradiction|]. cbn [Z.eqb].
  rewrite (skipToNewline_app l rest O Hl). cbn [Nat.add].
  replace (length (l ++ NL :: rest)) with (S (length l) + length rest)%nat
    by (rewrite length_app; simpl; lia).
  rewrite trimToNewline_app.
  pose proof (trimToNewline_le rest (length rest)) as Hle.
  unfold slice. rewrite length_app. cbn [length].
  destruct (Nat.leb_spec (S (length l))
              (S (length l) + Brc.trimToNewline rest (length rest))) as [_|];
    [|lia].
  destruct (Nat.leb_spec (S (length l) + Brc.trimToNewline rest (length rest))
              (length l + S (length rest))) as [_|]; [|lia].
  destruct (Nat.leb_spec (Brc.trimToNewline rest (length rest)) (length rest))
    as [_|]; [|lia].
  cbn [andb Nat.leb drop].
  replace (S (length l) + Brc.trimToNewline rest (length rest) - S (length l))%nat
    with (Brc.trimToNewline rest (length rest)) by lia.
  rewrite Nat.sub_0_r.
  replace (drop (S (length l)) (l ++ NL :: rest)) with rest; [reflexivity|].
  replace (l ++ NL :: rest) with ((l ++ [NL]) ++ rest)
    by (rewrite <- app_assoc; reflexivity).
  rewrite drop_app_length'; [reflexivity|]. rewrite length_app. simpl. lia.
Qed.

(** The two files, chunk by chunk. *)
Lemma mebibyte_size : Z.of_nat (length mebibyte) = 1048576.
Proof.
  unfold mebibyte.
  rewrite length_concat_repeat, Nat2Z.inj_mul, Nat2Z.inj_pow. reflexivity.
Qed.

Lemma tail_partition (tail : list byte) :
  length tail = 9%nat \/ length tail = 8%nat ->
  Brc.partition 2 (Z.of_nat (length (mebibyte ++ tail))) 2
  = Returned [Chunk.mk 0 1048576;
              Chunk.mk 1048576 (Z.of_nat (length tail))].
Proof.
  intros H. rewrite length_app, Nat2Z.inj_add, mebibyte_size.
  destruct H as [-> | ->]; vm_compute; reflexivity.
Qed.

Lemma tail_first_chunk tail :
  Brc.processChunk (mkFile (mebibyte ++ tail) 0 false) (Chunk.mk 0 1048576)
  = (mkFile (mebibyte ++ tail) 1048576 false, Brc.scanBuffer 0 mebibyte).
Proof.
  apply (processChunk_ok (mkFile (mebibyte ++ tail) 0 false) 0 1048576 _ tail).
  - lia.
  - lia.
  - reflexivity.
  - cbn [content Z.to_nat drop]. reflexivity.
  - exact mebibyte_size.
Qed.

Lemma tail_second_chunk tail pos :
  Brc.processChunk (mkFile (mebibyte ++ tail) pos false)
    (Chunk.mk 1048576 (Z.of_nat (length tail)))
  = (mkFile (mebibyte ++ tail) (1048576 + Z.of_nat (length tail)) false,
     Brc.scanBuffer 1048576 tail).
Proof.
  apply (processChunk_ok (mkFile (mebibyte ++ tail) pos false) 1048576
           (Z.of_nat (length tail)) tail []).
  - lia.
  - lia.
  - reflexivity.
  - cbn [content]. rewrite drop_app_length'; [rewrite app_nil_r; reflexivity|].
    pose proof mebibyte_size. lia.
  - reflexivity.
Qed.

Lemma mebibyte_table :
  exists s,
    Brc.scanBuffer 0 mebibyte
    = Returned {[ "Reykjavik" := Result.mk (-12.5) (-12.5) s 65536 ]}.
Proof.
  assert (0 < 2 ^ 16)%nat as Hpos
    by (apply Nat.neq_0_lt_0, Nat.pow_nonzero; discriminate).
  destruct (observe_repeat "Reykjavik" (-12.5)%float (2 ^ 16))
    as [s Hs]; [reflexivity|exact Hpos|rewrite Nat2Z.inj_pow; simpl; lia|].
  rewrite Nat2Z.inj_pow in Hs. change (Z.of_nat 2 ^ Z.of_nat 16) with 65536 in Hs.
  exists s. rewrite <- Hs.
  apply (scanBuffer_repeat (bytes "Reykjavik") (bytes "-12.5") (-12.5)%float).
  - by apply (bool_decide_unpack _).
  - by apply (bool_decide_unpack _).
  - reflexivity.
  - exact Hpos.
Qed.

(** C1, at [seamFile] with two workers: the second chunk is exactly the last
    line; its scanner skips up to and including the first newline it sees and
    so drops that complete line, which is then in no table of the run.  The
    same bytes read as a first chunk are counted. *)
Theorem seam_line_dropped :
  Brc.partition 2 (Z.of_nat (length (content seamFile))) 2
  = Returned [Chunk.mk 0 1048576; Chunk.mk 1048576 9] /\
  (Brc.processChunk seamFile (Chunk.mk 1048576 9)).2 = Returned ∅ /\
  (exists s, Brc.run 2 seamFile 2
             = Returned {[ "Reykjavik" := Result.mk (-12.5) (-12.5) s 65536 ]}) /\
  Brc.scanBuffer 1048576 (line "Oslo;2.5") = Returned ∅ /\
  Brc.scanBuffer 0 (line "Oslo;2.5") = Returned {[ "Oslo" := first 2.5 ]}.
Proof.
  assert (Brc.scanBuffer 1048576 (line "Oslo;2.5") = Returned ∅) as Hskip
    by (vm_compute; reflexivity).
  pose proof (tail_partition (line "Oslo;2.5") (or_introl Logic.eq_refl)) as HP.
  pose proof (tail_second_chunk (line "Oslo;2.5")) as H1.
  change (Z.of_nat (length (line "Oslo;2.5"))) with 9 in HP, H1.
  split; [exact HP|].
  split; [unfold seamFile; rewrite H1; exact Hskip|].
  split; [|split; [exact Hskip|vm_compute; reflexivity]].
  destruct mebibyte_table as [s Hs]. exists s.
  rewrite <- (mergeAll_singleton_empty "Reykjavik").
  eapply (run_steps 2 seamFile 2); [exact HP|].
  eapply scanChunks_two.
  - unfold seamFile. rewrite tail_first_chunk, Hs. reflexivity.
  - rewrite H1, Hskip. reflexivity.
Qed.

(** With the terminator of the last line missing, the second chunk holds no
    newline and the run panics (C10 on a file the partitioner splits). *)
Lemma unterminated_last_chunk_panics :
  Brc.run 2 unterminatedFile 2 = Panic SliceBoundsOutOfRange.
Proof.
  pose proof (tail_partition (bytes "Oslo;2.5") (or_intror Logic.eq_refl)) as HP.
  pose proof (tail_second_chunk (bytes "Oslo;2.5")) as H1.
  change (Z.of_nat (length (bytes "Oslo;2.5"))) with 8 in HP, H1.
  destruct mebibyte_table as [s Hs].
  eapply (run_panic 2 unterminatedFile 2); [exact HP|].
  eapply scanChunks_panic.
  - unfold unterminatedFile. rewrite tail_first_chunk, Hs. reflexivity.
  - rewrite H1. f_equal.
Qed.

(** The same loss when the seam falls inside a line: the first chunk cuts
    the line's head off at its last newline, the second skips the line's
    tail up to its first newline. *)
Example seam_midline_dropped :
  Brc.scanBuffer 0 (line "Berlin;1.0" ++ bytes "Hamb")
  = Returned {[ "Berlin" := first 1 ]} /\
  Brc.scanBuffer 15 (line "urg;12.0" ++ line "Oslo;2.5")
  = Returned {[ "Oslo" := first 2.5 ]}.
Proof. repeat apply conj; vm_compute; reflexivity. Qed.
